(** * mapnik/feature.hpp: attribute schema ([context]) and feature record
    ([feature_impl])

    A [context] owns a [std::map] from attribute names to slot numbers; a
    [feature_impl] holds a shared pointer to one context and a dense vector
    of values indexed by slot.  Contexts and features live in a store and are
    reached through pointers, so that a context that grows after a feature
    was built is seen by that feature, as in the C++ code.

    Sizes and indices ([std::size_t], [unsigned]) are natural numbers: the
    code compares them and counts up to the size of a container, and does
    no other arithmetic on them.  The id is an [int] that is only stored
    and returned. *)

From Stdlib Require Import ZArith.
From Stdlib Require OrderedTypeEx.
From stdpp Require Import base list strings sorting pretty.

Local Open Scope string_scope.
Local Open Scope nat_scope.
Set Warnings "-clear-no-such-hyp".

(** ** Collaborators that are declared outside feature.hpp *)

(** [mapnik::value] (value.hpp): the attribute value.  [value_null] is the
    default-constructed value, [value_to_string] is what [operator<<] writes
    to a stream. *)
Class ValueType (value : Type) := {
  value_null : value;
  value_to_string : value → string
}.

(** [box2d<T>] (box2d.hpp).  [box2d_default] is the default-constructed box,
    [init] and [expand_to_include] are the member functions of these names
    (they update the receiver, which is the first argument here). *)
Class Box2d (T box2d : Type) := {
  box2d_default : box2d;
  minx : box2d → T;
  miny : box2d → T;
  maxx : box2d → T;
  maxy : box2d → T;
  init : box2d → T → T → T → T → box2d;
  expand_to_include : box2d → box2d → box2d
}.

(** [geometry_type] (geometry.hpp): only its [envelope()] is used here. *)
Class GeometryType (geometry_type box2d : Type) := {
  geom_envelope : geometry_type → box2d
}.

(** ** [std::map<key_type, std::size_t>]

    The map is kept as the list of its entries in ascending key order, which
    is the order in which [begin()] .. [end()] visits them.  [std::string] is
    compared with [operator<], byte by byte with bytes taken unsigned:
    [String.compare]. *)

Definition key_type := string.
Definition map_type := list (key_type * nat).

Definition key_lt (a b : key_type) : Prop := String.compare a b = Lt.

(** [m.find(key)]: the entry whose key is equal to [key], or [end()]. *)
Fixpoint map_find (key : key_type) (m : map_type) : option (key_type * nat) :=
  match m with
  | [] => None
  | (k, v) :: m' => if String.eqb key k then Some (k, v) else map_find key m'
  end.

(** [m.insert(std::make_pair(k, v))]: walks down to the place of [k]; an
    entry with an equal key is left as it is. *)
Fixpoint map_insert (kv : key_type * nat) (m : map_type) : map_type :=
  match m with
  | [] => [kv]
  | (k', v') :: m' =>
      match String.compare kv.1 k' with
      | Lt => kv :: (k', v') :: m'
      | Eq => (k', v') :: m'
      | Gt => (k', v') :: map_insert kv m'
      end
  end.

(** The invariant of [std::map]: keys strictly ascending. *)
Definition map_ok (m : map_type) : Prop := StronglySorted key_lt m.*1.

(** ** class context *)

Record context := Context { mapping_ : map_type }.

(** [context()] *)
Definition context_new : context := Context [].

(** [void push(key_type const& name)] *)
Definition push (name : key_type) (c : context) : context :=
  Context (map_insert (name, length (mapping_ c)) (mapping_ c)).

(** [std::size_t size() const] *)
Definition context_size (c : context) : nat := length (mapping_ c).

(** The range [begin()], [end()). *)
Definition context_range (c : context) : list (key_type * nat) := mapping_ c.

(** Slot numbers are exactly [0 .. size-1], each used once. *)
Definition slots_dense (m : map_type) : Prop := m.*2 ≡ₚ seq 0 (length m).

Record context_ok (c : context) : Prop := ContextOk {
  ok_sorted : map_ok (mapping_ c);
  ok_dense : slots_dense (mapping_ c)
}.

(** The contexts that the public interface can build. *)
Inductive context_reachable : context → Prop :=
  | reachable_new : context_reachable context_new
  | reachable_push name c :
      context_reachable c → context_reachable (push name c).

(** The context after [push(name1)], ..., [push(nameN)] on a fresh one. *)
Definition registered (names : list key_type) : context :=
  foldl (λ c name, push name c) context_new names.

(** The alternative reading of [push] in which an existing entry is
    overwritten with the new slot number; used only for comparison. *)
Fixpoint map_insert_or_assign (kv : key_type * nat) (m : map_type) : map_type :=
  match m with
  | [] => [kv]
  | (k', v') :: m' =>
      match String.compare kv.1 k' with
      | Lt => kv :: (k', v') :: m'
      | Eq => kv :: m'
      | Gt => (k', v') :: map_insert_or_assign kv m'
      end
  end.

Definition push_overwriting (name : key_type) (c : context) : context :=
  Context (map_insert_or_assign (name, length (mapping_ c)) (mapping_ c)).

(** Entries by ascending slot number, that is, in registration order. *)
Definition slot_le (a b : key_type * nat) : Prop := (a.2 ≤ b.2)%nat.

#[global] Instance slot_le_dec : RelDecision slot_le.
Proof. intros a b. unfold slot_le. apply _. Defined.

Definition registration_order (c : context) : list (key_type * nat) :=
  merge_sort slot_le (mapping_ c).

(** The pieces written to a stream, one after the other. *)
Definition stream_concat (pieces : list string) : string :=
  foldr String.append "" pieces.

(** ** Store, pointers and the error/state monad of the member functions *)

Definition context_ptr := nat.
Definition feature_ptr := nat.

(** [std::endl] writes a newline. *)
Definition endl : string := String (Ascii.ascii_of_nat 10) EmptyString.

Inductive exn := out_of_range (what : string).

(** The exception that [put] and [get] throw. *)
Definition key_error : exn := out_of_range "Key doesn't exist".

Inductive outcome (A : Type) :=
  | Ret (a : A)
  | Throw (e : exn)
  | Undefined.
Arguments Ret {A} a.
Arguments Throw {A} e.
Arguments Undefined {A}.

Section Model.
Context {value geometry_type raster box2d T : Type}.
Context `{!ValueType value, !Box2d T box2d, !GeometryType geometry_type box2d}.

(** ** class feature_impl: the private members *)
Record feature_impl := Feature {
  id_ : Z;
  ctx_ : context_ptr;
  geom_cont_ : list geometry_type;
  raster_ : option raster;
  data_ : list value
}.

Definition with_data (f : feature_impl) (d : list value) : feature_impl :=
  Feature (id_ f) (ctx_ f) (geom_cont_ f) (raster_ f) d.

Record world := World {
  contexts : list context;
  features : list feature_impl
}.

Definition M (A : Type) : Type := world → outcome A * world.

Definition ret {A} (a : A) : M A := λ w, (Ret a, w).
Definition throw {A} (e : exn) : M A := λ w, (Throw e, w).
Definition undefined {A} : M A := λ w, (Undefined, w).
Definition bind {A B} (m : M A) (k : A → M B) : M B :=
  λ w, match m w with
       | (Ret a, w') => k a w'
       | (Throw e, w') => (Throw e, w')
       | (Undefined, w') => (Undefined, w')
       end.

(** Dereferencing: a pointer that designates no object is undefined
    behaviour. *)
Definition load_context (p : context_ptr) : M context :=
  λ w, match contexts w !! p with
       | Some c => (Ret c, w)
       | None => (Undefined, w)
       end.
Definition load_feature (p : feature_ptr) : M feature_impl :=
  λ w, match features w !! p with
       | Some f => (Ret f, w)
       | None => (Undefined, w)
       end.
Definition store_context (p : context_ptr) (c : context) : M unit :=
  λ w, (Ret tt, World (<[p := c]> (contexts w)) (features w)).
Definition store_feature (p : feature_ptr) (f : feature_impl) : M unit :=
  λ w, (Ret tt, World (contexts w) (<[p := f]> (features w))).
Definition alloc_context (c : context) : M context_ptr :=
  λ w, (Ret (length (contexts w)), World (contexts w ++ [c]) (features w)).
Definition alloc_feature (f : feature_impl) : M feature_ptr :=
  λ w, (Ret (length (features w)), World (contexts w) (features w ++ [f])).

Notation "'let*' x ':=' m 'in' k" := (bind m (λ x, k))
  (at level 10, x name, k at level 200, only parsing).

(** ** The shared context, through its pointer *)

(** [context_ptr(new context)] *)
Definition make_context : M context_ptr := alloc_context context_new.

(** [ctx->push(name)] *)
Definition ctx_push (ctx : context_ptr) (name : key_type) : M unit :=
  let* c := load_context ctx in
  store_context ctx (push name c).

Fixpoint ctx_push_all (ctx : context_ptr) (names : list key_type) : M unit :=
  match names with
  | [] => ret tt
  | name :: names' => let* _ := ctx_push ctx name in ctx_push_all ctx names'
  end.

(** ** class feature_impl: the member functions *)

(** [feature_impl(context_ptr const& ctx, int id)]: [data_] is built with
    [ctx_->mapping_.size()] default-constructed values; the geometry
    container is empty and the raster pointer null. *)
Definition feature_impl_new (ctx : context_ptr) (id : Z) : M feature_ptr :=
  let* c := load_context ctx in
  alloc_feature
    (Feature id ctx [] None (replicate (length (mapping_ c)) value_null)).

(** [int id() const] *)
Definition get_id (this : feature_ptr) : M Z :=
  let* f := load_feature this in ret (id_ f).

(** [void set_id(int id)] *)
Definition set_id (this : feature_ptr) (id : Z) : M unit :=
  let* f := load_feature this in
  store_feature this
    (Feature id (ctx_ f) (geom_cont_ f) (raster_ f) (data_ f)).

(** [void put(key_type const& key, value const& val)] *)
Definition put (this : feature_ptr) (key : key_type) (val : value) : M unit :=
  let* f := load_feature this in
  let* c := load_context (ctx_ f) in
  match map_find key (mapping_ c) with
  | Some itr =>
      if bool_decide (itr.2 < length (data_ f))%nat
      then store_feature this (with_data f (<[itr.2 := val]> (data_ f)))
      else throw (out_of_range "Key doesn't exist")
  | None => throw (out_of_range "Key doesn't exist")
  end.

(** [bool has_key(key_type const& key) const] *)
Definition has_key (this : feature_ptr) (key : key_type) : M bool :=
  let* f := load_feature this in
  let* c := load_context (ctx_ f) in
  ret (match map_find key (mapping_ c) with
       | Some _ => true
       | None => false
       end).

(** [value_type const& get(key_type const& key) const] *)
Definition get (this : feature_ptr) (key : key_type) : M value :=
  let* f := load_feature this in
  let* c := load_context (ctx_ f) in
  match map_find key (mapping_ c) with
  | Some itr =>
      if bool_decide (itr.2 < length (data_ f))%nat
      then match data_ f !! itr.2 with
           | Some v => ret v
           | None => undefined
           end
      else throw (out_of_range "Key doesn't exist")
  | None => throw (out_of_range "Key doesn't exist")
  end.

(** [std::size_t size() const] *)
Definition feature_size (this : feature_ptr) : M nat :=
  let* f := load_feature this in ret (length (data_ f)).

(** [void add_geometry(geometry_type * geom)] *)
Definition add_geometry (this : feature_ptr) (geom : geometry_type) : M unit :=
  let* f := load_feature this in
  store_feature this
    (Feature (id_ f) (ctx_ f) (geom_cont_ f ++ [geom]) (raster_ f) (data_ f)).

(** [unsigned num_geometries() const] *)
Definition num_geometries (f : feature_impl) : nat := length (geom_cont_ f).

(** [geometry_type const& get_geometry(unsigned index) const] *)
Definition get_geometry (f : feature_impl) (index : nat) : option geometry_type :=
  geom_cont_ f !! index.

(** [box2d<double> envelope() const].  The [for] loop runs at most
    [num_geometries()] times, which is the first argument of the loop
    function; [i] is the loop variable and [result] the accumulator. *)
Fixpoint envelope_loop (n i : nat) (f : feature_impl) (result : box2d)
    : option box2d :=
  match n with
  | 0 => Some result
  | S n' =>
      if bool_decide (i < num_geometries f)%nat then
        match get_geometry f i with
        | Some geom =>
            let result' :=
              if bool_decide (i = 0)%nat then
                let box := geom_envelope geom in
                init result (minx box) (miny box) (maxx box) (maxy box)
              else expand_to_include result (geom_envelope geom) in
            envelope_loop n' (S i) f result'
        | None => None
        end
      else Some result
  end.

Definition envelope (this : feature_ptr) : M box2d :=
  let* f := load_feature this in
  match envelope_loop (num_geometries f) 0 f box2d_default with
  | Some result => ret result
  | None => undefined
  end.

(** [const raster_ptr& get_raster() const] *)
Definition get_raster (this : feature_ptr) : M (option raster) :=
  let* f := load_feature this in ret (raster_ f).

(** [void set_raster(raster_ptr const& raster)] *)
Definition set_raster (this : feature_ptr) (r : option raster) : M unit :=
  let* f := load_feature this in
  store_feature this
    (Feature (id_ f) (ctx_ f) (geom_cont_ f) r (data_ f)).

(** [std::string to_string() const].  [ss] is the stream's content; the
    loop reads [data_[itr->second]] without a range check, so a slot past
    the end of [data_] is undefined behaviour ([None]). *)
Fixpoint to_string_loop (itr : map_type) (data : list value) (ss : string)
    : option string :=
  match itr with
  | [] => Some ss
  | (first, second) :: itr' =>
      match data !! second with
      | Some v =>
          to_string_loop itr' data
            (ss +:+ "  " +:+ first +:+ ":" +:+ value_to_string v +:+ endl)
      | None => None
      end
  end.

Definition to_string (this : feature_ptr) : M string :=
  let* f := load_feature this in
  let* c := load_context (ctx_ f) in
  match to_string_loop (mapping_ c) (data_ f) ("Feature (" +:+ endl) with
  | Some ss => ret (ss +:+ ")" +:+ endl)
  | None => undefined
  end.

(** The outcome and the final store of running [m] from [w]. *)
Definition result_of {A} (m : M A) (w : world) : outcome A := (m w).1.
Definition world_after {A} (m : M A) (w : world) : world := (m w).2.

(** ** The debug text as the specification words it

    One [name: value] line per registered attribute, lines separated by a
    newline, in registration order, only for the names whose slot lies
    within the value sequence. *)
Definition describe_lines (c : context) (f : feature_impl) : list string :=
  omap (λ e : key_type * nat,
          v ← data_ f !! e.2; Some (e.1 +:+ ": " +:+ value_to_string v))
       (registration_order c).

Definition describe_spec (c : context) (f : feature_impl) : string :=
  String.concat endl (describe_lines c f).

(** What one turn of the loop of [to_string] writes for the entry of
    [name] when the slot holds [v]. *)
Definition attribute_line (name : key_type) (v : value) : string :=
  "  " +:+ name +:+ ":" +:+ value_to_string v +:+ endl.

(** A box built from the four coordinates of another one, as [envelope]
    does for the first geometry. *)
Definition init_from (result box : box2d) : box2d :=
  init result (minx box) (miny box) (maxx box) (maxy box).
End Model.

Notation "'let*' x ':=' m 'in' k" := (bind m (λ x, k))
  (at level 10, x name, k at level 200, only parsing).

Arguments feature_impl : clear implicits.
Arguments world : clear implicits.
Arguments M : clear implicits.

(** ** Concrete collaborators, for evaluating the model on examples *)

(** Modelled from the spec: the attribute value type of value.hpp, which is
    not part of this unit: a tagged union with null, boolean, integer and
    text variants (the floating-point variant is left out), default-built as
    null, with a deterministic text rendering. *)
Inductive attr_value :=
  | attr_null
  | attr_bool (b : bool)
  | attr_int (i : Z)
  | attr_text (s : string).

Definition attr_to_string (v : attr_value) : string :=
  match v with
  | attr_null => ""
  | attr_bool true => "true"
  | attr_bool false => "false"
  | attr_int i => pretty i
  | attr_text s => s
  end.

#[global] Instance attr_value_type : ValueType attr_value :=
  {| value_null := attr_null; value_to_string := attr_to_string |}.

(** Modelled from the spec: the rectangle type of box2d.hpp, which is not
    part of this unit, with exact integer coordinates in place of doubles.
    The default-built box is the empty sentinel, whose maxima lie below its
    minima; [init] orders the corners; [expand_to_include] is the union. *)
Record zbox := ZBox { zminx : Z; zminy : Z; zmaxx : Z; zmaxy : Z }.

Definition zbox_default : zbox := ZBox 0 0 (-1) (-1).

Definition zbox_init (_ : zbox) (x0 y0 x1 y1 : Z) : zbox :=
  ZBox (if bool_decide (x0 < x1)%Z then x0 else x1)
       (if bool_decide (y0 < y1)%Z then y0 else y1)
       (if bool_decide (x0 < x1)%Z then x1 else x0)
       (if bool_decide (y0 < y1)%Z then y1 else y0).

Definition zbox_expand_to_include (b other : zbox) : zbox :=
  ZBox (if bool_decide (zminx other < zminx b)%Z then zminx other else zminx b)
       (if bool_decide (zminy other < zminy b)%Z then zminy other else zminy b)
       (if bool_decide (zmaxx other > zmaxx b)%Z then zmaxx other else zmaxx b)
       (if bool_decide (zmaxy other > zmaxy b)%Z then zmaxy other else zmaxy b).

#[global] Instance zbox_box2d : Box2d Z zbox :=
  {| box2d_default := zbox_default;
     minx := zminx; miny := zminy; maxx := zmaxx; maxy := zmaxy;
     init := zbox_init;
     expand_to_include := zbox_expand_to_include |}.

(** A box with its corners in order, and the inclusion of boxes. *)
Definition zbox_valid (b : zbox) : Prop :=
  (zminx b ≤ zmaxx b)%Z ∧ (zminy b ≤ zmaxy b)%Z.

Definition zbox_contains (outer inner : zbox) : Prop :=
  (zminx outer ≤ zminx inner)%Z ∧ (zminy outer ≤ zminy inner)%Z ∧
  (zmaxx inner ≤ zmaxx outer)%Z ∧ (zmaxy inner ≤ zmaxy outer)%Z.

(** Modelled from the spec: a geometry (geometry.hpp is not part of this
    unit) is only required to expose its axis-aligned bounding box. *)
Record zgeometry := ZGeometry { zgeom_box : zbox }.

#[global] Instance zgeometry_type : GeometryType zgeometry zbox :=
  {| geom_envelope := zgeom_box |}.

(** The raster (raster.hpp) is opaque. *)
Definition zraster := unit.

Definition zfeature := feature_impl attr_value zgeometry zraster.
Definition zworld := world attr_value zgeometry zraster.

Definition empty_world : zworld := World [] [].

(** A context in which "b" and then "a" were registered, and a record
    built after that, with 1 put in "b" and "x" in "a", and two
    geometries with the boxes [0,0]-[1,1] and [2,2]-[3,3]. *)
Definition sample_context : context := registered ["b"; "a"].

Definition sample_feature : zfeature :=
  Feature 7 0
    [ZGeometry (ZBox 0 0 1 1); ZGeometry (ZBox 2 2 3 3)]
    None
    [attr_int 1; attr_text "x"].

Definition sample_world : zworld := World [sample_context] [sample_feature].

(** The same store as the member functions build it. *)
Definition sample_build : M attr_value zgeometry zraster feature_ptr :=
  let* ctx := make_context in
  let* _ := ctx_push_all ctx ["b"; "a"] in
  let* f := feature_impl_new ctx 7 in
  let* _ := put f "b" (attr_int 1) in
  let* _ := put f "a" (attr_text "x") in
  let* _ := add_geometry f (ZGeometry (ZBox 0 0 1 1)) in
  let* _ := add_geometry f (ZGeometry (ZBox 2 2 3 3)) in
  ret f.

(** A record built on an empty context, which then grows by one name. *)
Definition grown_build : M attr_value zgeometry zraster feature_ptr :=
  let* ctx := make_context in
  let* f := feature_impl_new ctx 7 in
  let* _ := ctx_push ctx "late" in
  ret f.

(** * Properties *)

(** ** The ordering of keys *)

Lemma key_lt_trans a b c : key_lt a b → key_lt b c → key_lt a c.
Proof.
  unfold key_lt. intros Hab Hbc.
  apply OrderedTypeEx.String_as_OT.cmp_lt.
  eapply OrderedTypeEx.String_as_OT.lt_trans;
    apply OrderedTypeEx.String_as_OT.cmp_lt; eassumption.
Qed.

Lemma compare_Eq (a b : key_type) : String.compare a b = Eq ↔ a = b.
Proof. apply OrderedTypeEx.String_as_OT.cmp_eq. Qed.

Lemma compare_refl (a : key_type) : String.compare a a = Eq.
Proof. by apply compare_Eq. Qed.

Lemma key_lt_irrefl a : ¬ key_lt a a.
Proof. unfold key_lt. by rewrite compare_refl. Qed.

Lemma compare_Gt_lt (a b : key_type) : String.compare a b = Gt → key_lt b a.
Proof.
  unfold key_lt. intros H. rewrite String.compare_antisym, H. done.
Qed.

(** ** Strings *)

Lemma string_app_assoc (s1 s2 s3 : string) :
  (s1 +:+ s2) +:+ s3 = s1 +:+ (s2 +:+ s3).
Proof.
  induction s1 as [|a s1 IH]; [done|].
  change (String a ((s1 +:+ s2) +:+ s3) = String a (s1 +:+ (s2 +:+ s3))).
  by rewrite IH.
Qed.

Lemma string_app_nil_r (s : string) : s +:+ "" = s.
Proof.
  induction s as [|a s IH]; [done|].
  change (String a (s +:+ "") = String a s). by rewrite IH.
Qed.

(** ** The map *)

Lemma map_find_None key m : map_find key m = None ↔ key ∉ m.*1.
Proof.
  induction m as [|[k v] m IH]; simpl.
  - split; [intros _; apply not_elem_of_nil | done].
  - destruct (String.eqb_spec key k) as [->|Hne].
    + split; [done | intros Hnin; exfalso; apply Hnin; left].
    + rewrite IH, not_elem_of_cons. naive_solver.
Qed.

Lemma map_find_Some key m e : map_find key m = Some e → e ∈ m ∧ e.1 = key.
Proof.
  induction m as [|[k v] m IH]; simpl; [done|].
  destruct (String.eqb_spec key k) as [->|Hne].
  - intros [= <-]. split; [left | done].
  - intros [? ?]%IH. split; [by right | done].
Qed.

Lemma map_find_is_Some key m : is_Some (map_find key m) ↔ key ∈ m.*1.
Proof.
  rewrite <-not_eq_None_Some, map_find_None.
  split; [apply dec_stable | tauto].
Qed.

Lemma map_ok_lookup_unique m k v v' :
  map_ok m → (k, v) ∈ m → (k, v') ∈ m → v = v'.
Proof.
  unfold map_ok. induction m as [|[k0 v0] m IH]; simpl; intros Hok H1 H2.
  - by apply elem_of_nil in H1.
  - apply StronglySorted_inv in Hok as [Hok Hall].
    rewrite Forall_forall in Hall.
    apply elem_of_cons in H1 as [[= -> ->]|H1];
      apply elem_of_cons in H2 as [[= ?]|H2]; subst; auto.
    + exfalso. apply (key_lt_irrefl k0), Hall.
      change k0 with (k0, v').1. by apply list_elem_of_fmap_2.
    + exfalso. apply (key_lt_irrefl k0), Hall.
      change k0 with (k0, v).1. by apply list_elem_of_fmap_2.
Qed.

Lemma map_ok_find m k v : map_ok m → (k, v) ∈ m → map_find k m = Some (k, v).
Proof.
  intros Hok Hin.
  destruct (map_find k m) as [[k' v']|] eqn:Hfind.
  - apply map_find_Some in Hfind as [Hin' Hk]. simpl in Hk. subst k'.
    by rewrite (map_ok_lookup_unique m k v v' Hok Hin Hin').
  - apply map_find_None in Hfind. exfalso. apply Hfind.
    change k with (k, v).1. by apply list_elem_of_fmap_2.
Qed.

Lemma map_insert_keys k v m k' :
  k' ∈ (map_insert (k, v) m).*1 ↔ k' = k ∨ k' ∈ m.*1.
Proof.
  induction m as [|[k0 v0] m IH]; simpl.
  - rewrite list_elem_of_singleton, elem_of_nil. tauto.
  - destruct (String.compare k k0) eqn:Hcmp; simpl; rewrite ?elem_of_cons.
    + apply compare_Eq in Hcmp as ->. naive_solver.
    + simpl. naive_solver.
    + rewrite IH. naive_solver.
Qed.

Lemma map_insert_ok k v m : map_ok m → map_ok (map_insert (k, v) m).
Proof.
  unfold map_ok. induction m as [|[k0 v0] m IH]; simpl; intros Hok.
  - repeat constructor.
  - destruct (String.compare k k0) eqn:Hcmp; simpl; [done| |].
    + constructor; [done|].
      apply StronglySorted_inv in Hok as [_ Hall].
      constructor; [done|].
      eapply Forall_impl; [exact Hall|]. intros ?. by apply key_lt_trans.
    + apply StronglySorted_inv in Hok as [Hok Hall].
      constructor; [by apply IH|].
      apply Forall_forall. intros x Hx.
      apply map_insert_keys in Hx as [->|Hx].
      * by apply compare_Gt_lt.
      * rewrite Forall_forall in Hall. by apply Hall.
Qed.

(** Inserting a key that is there changes nothing. *)
Lemma map_insert_present k v m :
  map_ok m → k ∈ m.*1 → map_insert (k, v) m = m.
Proof.
  unfold map_ok. induction m as [|[k0 v0] m IH]; simpl; intros Hok Hin.
  - by apply elem_of_nil in Hin.
  - apply StronglySorted_inv in Hok as [Hok Hall].
    destruct (String.compare k k0) eqn:Hcmp; [done| |].
    + exfalso. apply elem_of_cons in Hin as [->|Hin].
      * by rewrite compare_refl in Hcmp.
      * rewrite Forall_forall in Hall.
        apply Hall in Hin.
        apply (key_lt_irrefl k). by eapply key_lt_trans.
    + f_equal. apply IH; [done|].
      apply elem_of_cons in Hin as [->|Hin]; [|done].
      by rewrite compare_refl in Hcmp.
Qed.

(** Inserting a key that is not there adds exactly one entry. *)
Lemma map_insert_absent k v m :
  k ∉ m.*1 → map_insert (k, v) m ≡ₚ (k, v) :: m.
Proof.
  induction m as [|[k0 v0] m IH]; simpl; intros Hnin; [done|].
  apply not_elem_of_cons in Hnin as [Hne Hnin].
  destruct (String.compare k k0) eqn:Hcmp.
  - by apply compare_Eq in Hcmp.
  - done.
  - rewrite IH by done. apply Permutation_swap.
Qed.

Lemma map_find_insert_absent k v m :
  k ∉ m.*1 → map_find k (map_insert (k, v) m) = Some (k, v).
Proof.
  induction m as [|[k0 v0] m IH]; simpl; intros Hnin.
  - by rewrite String.eqb_refl.
  - apply not_elem_of_cons in Hnin as [Hne Hnin].
    destruct (String.compare k k0) eqn:Hcmp; simpl.
    + by apply compare_Eq in Hcmp.
    + by rewrite String.eqb_refl.
    + apply String.eqb_neq in Hne. rewrite Hne. by apply IH.
Qed.

Lemma map_find_insert_ne k v m k' :
  k' ≠ k → map_find k' (map_insert (k, v) m) = map_find k' m.
Proof.
  intros Hne. induction m as [|[k0 v0] m IH]; simpl.
  - apply String.eqb_neq in Hne. by rewrite Hne.
  - destruct (String.compare k k0) eqn:Hcmp; simpl; [done| |].
    + apply String.eqb_neq in Hne. by rewrite Hne.
    + by rewrite IH.
Qed.

(** ** The context *)

Lemma push_present name c :
  map_ok (mapping_ c) → name ∈ (mapping_ c).*1 → push name c = c.
Proof.
  intros Hok Hin. destruct c as [m]. unfold push. simpl in *.
  by rewrite map_insert_present.
Qed.

Lemma push_absent name c :
  name ∉ (mapping_ c).*1 →
  mapping_ (push name c) ≡ₚ (name, context_size c) :: mapping_ c.
Proof. intros Hnin. by apply map_insert_absent. Qed.

Lemma push_size_absent name c :
  name ∉ (mapping_ c).*1 → context_size (push name c) = S (context_size c).
Proof.
  intros Hnin. unfold context_size.
  by rewrite (Permutation_length (push_absent name c Hnin)).
Qed.

Lemma push_ok name c : context_ok c → context_ok (push name c).
Proof.
  intros [Hsorted Hdense]. split.
  - by apply map_insert_ok.
  - destruct (decide (name ∈ (mapping_ c).*1)) as [Hin|Hnin].
    + by rewrite push_present.
    + unfold slots_dense in *.
      pose proof (push_absent name c Hnin) as Hperm.
      rewrite (Permutation_length Hperm), Hperm, fmap_cons.
      cbn [length snd]. rewrite seq_S, Hdense. unfold context_size.
      apply Permutation_cons_append.
Qed.

Lemma context_new_ok : context_ok context_new.
Proof. split; [apply SSorted_nil | by unfold slots_dense]. Qed.

Lemma reachable_ok c : context_reachable c → context_ok c.
Proof. induction 1; [apply context_new_ok | by apply push_ok]. Qed.

Lemma foldl_push_reachable names c :
  context_reachable c →
  context_reachable (foldl (λ c name, push name c) c names).
Proof.
  revert c. induction names as [|name names IH]; simpl; intros c Hc; [done|].
  apply IH. by constructor.
Qed.

Lemma registered_reachable names : context_reachable (registered names).
Proof. apply foldl_push_reachable. constructor. Qed.

Lemma slot_lt_size c e : context_ok c → e ∈ mapping_ c → e.2 < context_size c.
Proof.
  intros [_ Hdense] Hin.
  assert (e.2 ∈ seq 0 (length (mapping_ c))) as Hseq.
  { unfold slots_dense in Hdense. rewrite <-Hdense.
    by apply list_elem_of_fmap_2. }
  apply elem_of_seq in Hseq. unfold context_size. lia.
Qed.

Lemma push_keys name c k :
  k ∈ (mapping_ (push name c)).*1 ↔ k = name ∨ k ∈ (mapping_ c).*1.
Proof. apply map_insert_keys. Qed.

(** A push never moves the entry of another name. *)
Lemma push_other_entries name c key :
  key ≠ name →
  map_find key (mapping_ (push name c)) = map_find key (mapping_ c).
Proof. intros Hne. by apply map_find_insert_ne. Qed.

(** Registering distinct fresh names appends their pairs, up to the order
    in which the map stores them. *)
Lemma foldl_push_distinct names c :
  NoDup names → (∀ name, name ∈ names → name ∉ (mapping_ c).*1) →
  mapping_ (foldl (λ c name, push name c) c names)
    ≡ₚ mapping_ c ++ zip names (seq (context_size c) (length names)).
Proof.
  revert c. induction names as [|name names IH]; simpl; intros c Hnd Hfresh.
  - by rewrite app_nil_r.
  - apply NoDup_cons in Hnd as [Hnin Hnd].
    assert (name ∉ (mapping_ c).*1) as Hnew by (apply Hfresh; left).
    rewrite IH; [|done|].
    + rewrite (push_size_absent name c Hnew), (push_absent name c Hnew).
      simpl. by rewrite Permutation_middle.
    + intros name' Hin' [->|Hold]%push_keys; [done|].
      by apply (Hfresh name'); [right|].
Qed.

Lemma registered_distinct names :
  NoDup names →
  mapping_ (registered names) ≡ₚ zip names (seq 0 (length names)).
Proof.
  intros Hnd. unfold registered.
  rewrite foldl_push_distinct; [done..|].
  intros name _. apply not_elem_of_nil.
Qed.

(** C3 (as amended): after [push(name1)], ..., [push(nameN)] with distinct
    names on a fresh context, [size()] is N, and the range [begin()..end())
    holds exactly the pairs (name_i, i-1), each name with the position at
    which it was registered as its slot; the range is in ascending order of
    the names, which is the order of [std::map], not the order of
    registration. *)
Theorem registered_range_sorted names :
  NoDup names →
  context_size (registered names) = length names ∧
  context_range (registered names) ≡ₚ zip names (seq 0 (length names)) ∧
  (∀ i name, names !! i = Some name →
     map_find name (mapping_ (registered names)) = Some (name, i)) ∧
  StronglySorted key_lt (context_range (registered names)).*1.
Proof.
  intros Hnd.
  pose proof (reachable_ok _ (registered_reachable names)) as [Hsorted _].
  split; [|split; [|split]].
  - unfold context_size.
    rewrite (Permutation_length (registered_distinct names Hnd)).
    rewrite length_zip_with, length_seq. lia.
  - by apply registered_distinct.
  - intros i name Hi. apply map_ok_find; [done|].
    rewrite (registered_distinct names Hnd).
    apply (list_elem_of_lookup_2 _ i), lookup_zip_with_Some.
    exists name, i. split; [done|]. split; [done|].
    apply lookup_seq. split; [done|]. by eapply lookup_lt_Some.
  - done.
Qed.

Lemma registered_range_sorted_witness :
  context_size (registered ["b"; "a"]) = 2 ∧
  context_range (registered ["b"; "a"]) ≡ₚ [("b", 0); ("a", 1)] ∧
  (∀ i name, ["b"; "a"] !! i = Some name →
     map_find name (mapping_ (registered ["b"; "a"])) = Some (name, i)) ∧
  StronglySorted key_lt (context_range (registered ["b"; "a"])).*1.
Proof.
  apply (registered_range_sorted ["b"; "a"]).
  apply (bool_decide_unpack _). vm_compute. exact I.
Defined.

(** C3 (as stated) fails: registering "b" and then "a" makes the range
    start with "a", whose slot is 1. *)
Lemma registered_range_counterexample :
  context_range (registered ["b"; "a"]) = [("a", 1); ("b", 0)] ∧
  context_range (registered ["b"; "a"]) ≠ zip ["b"; "a"] (seq 0 2).
Proof. split; [reflexivity | discriminate]. Qed.

(** C4 (as amended): registering a name that the context already holds
    leaves the entry of that name as it is: the name keeps its slot. *)
Theorem push_existing_keeps_entry c name e :
  context_reachable c →
  map_find name (mapping_ c) = Some e →
  map_find name (mapping_ (push name c)) = Some e.
Proof.
  intros Hc Hfind. rewrite push_present; [done| |].
  - apply reachable_ok, Hc.
  - apply map_find_is_Some. by exists e.
Qed.

Lemma push_existing_keeps_entry_witness :
  map_find "a" (mapping_ (push "a" (registered ["a"; "b"]))) = Some ("a", 0).
Proof.
  apply (push_existing_keeps_entry (registered ["a"; "b"]) "a" ("a", 0)).
  - apply registered_reachable.
  - reflexivity.
Defined.

(** C4 (as stated) fails: after "a" and "b", registering "a" again does not
    give "a" the new slot 2, which overwriting the entry would do. *)
Lemma push_existing_counterexample :
  map_find "a" (mapping_ (push "a" (registered ["a"; "b"]))) = Some ("a", 0) ∧
  map_find "a" (mapping_ (push_overwriting "a" (registered ["a"; "b"])))
    = Some ("a", 2) ∧
  push "a" (registered ["a"; "b"]) ≠ push_overwriting "a" (registered ["a"; "b"]).
Proof. split; [reflexivity | split; [reflexivity | discriminate]]. Qed.

(** ** The feature record *)

Section Properties.
Context {value geometry_type raster box2d T : Type}.
Context `{!ValueType value, !Box2d T box2d, !GeometryType geometry_type box2d}.

Abbreviation world := (world value geometry_type raster).
Abbreviation feature_impl := (feature_impl value geometry_type raster).

Implicit Types (w : world) (f : feature_impl) (c : context).
Implicit Types (this : feature_ptr) (ctx : context_ptr) (key name : key_type).

(** From the second turn on, the loop of [envelope] only expands. *)
Lemma envelope_loop_later f n i (result : box2d) :
  0 < i → i + n = length (geom_cont_ f) →
  envelope_loop n i f result =
    Some (foldl expand_to_include result
            (geom_envelope <$> drop i (geom_cont_ f))).
Proof.
  revert i result. induction n as [|n IH]; intros i result Hi Hlen.
  - simpl. rewrite drop_ge by lia. done.
  - cbn [envelope_loop]. unfold num_geometries, get_geometry.
    rewrite bool_decide_eq_true_2 by lia.
    destruct (lookup_lt_is_Some_2 (geom_cont_ f) i) as [geom Hgeom]; [lia|].
    rewrite Hgeom, bool_decide_eq_false_2 by lia.
    rewrite IH by lia.
    by rewrite (drop_S _ _ _ Hgeom).
Qed.

Lemma envelope_loop_fold f :
  envelope_loop (num_geometries f) 0 f box2d_default =
    Some (match geom_cont_ f with
          | [] => box2d_default
          | geom :: rest =>
              foldl expand_to_include
                (init_from box2d_default (geom_envelope geom))
                (geom_envelope <$> rest)
          end).
Proof.
  unfold num_geometries.
  destruct (geom_cont_ f) as [|geom rest] eqn:Hgeoms; [done|].
  cbn [length envelope_loop]. unfold num_geometries, get_geometry.
  rewrite Hgeoms. cbn [length lookup list_lookup].
  rewrite bool_decide_eq_true_2 by lia.
  rewrite bool_decide_eq_true_2 by done.
  rewrite (envelope_loop_later f (length rest) 1); [| lia |].
  - by rewrite Hgeoms.
  - rewrite Hgeoms. simpl. lia.
Qed.

(** The loop of [to_string] appends one line per entry when every slot
    is within the value sequence. *)
Lemma to_string_loop_lines (itr : map_type) (data vals : list value) ss :
  Forall2 (λ e v, data !! e.2 = Some v) itr vals →
  to_string_loop itr data ss =
    Some (ss +:+ stream_concat (zip_with attribute_line itr.*1 vals)).
Proof.
  intros Hvals. revert ss.
  induction Hvals as [|[first second] v itr vals Hv _ IH]; intros ss.
  - simpl. by rewrite string_app_nil_r.
  - simpl in *. rewrite Hv, IH. f_equal.
    by rewrite string_app_assoc.
Qed.

Lemma slots_in_range_values (itr : map_type) (data : list value) :
  (∀ e, e ∈ itr → e.2 < length data) →
  ∃ vals, Forall2 (λ e v, data !! e.2 = Some v) itr vals.
Proof.
  induction itr as [|e itr IH]; intros Hrange.
  - exists []. constructor.
  - destruct IH as [vals Hvals].
    { intros e' He'. apply Hrange. by right. }
    destruct (lookup_lt_is_Some_2 data e.2) as [v Hv].
    { apply Hrange. by left. }
    exists (v :: vals). by constructor.
Qed.

(** What [put], [get] and [has_key] do on a store in which the feature
    and its context are there. *)
Lemma put_run w this f c key (val : value) :
  features w !! this = Some f → contexts w !! ctx_ f = Some c →
  put this key val w =
    match map_find key (mapping_ c) with
    | Some itr =>
        if bool_decide (itr.2 < length (data_ f))
        then (Ret tt,
              World (contexts w)
                (<[this := with_data f (<[itr.2 := val]> (data_ f))]>
                   (features w)))
        else (Throw key_error, w)
    | None => (Throw key_error, w)
    end.
Proof.
  intros Hf Hc. unfold put, bind, load_feature, load_context.
  rewrite Hf, Hc.
  destruct (map_find key (mapping_ c)) as [itr|]; [|done].
  by destruct (bool_decide (itr.2 < length (data_ f))).
Qed.

Lemma get_run w this f c key :
  features w !! this = Some f → contexts w !! ctx_ f = Some c →
  get this key w =
    match map_find key (mapping_ c) with
    | Some itr =>
        match data_ f !! itr.2 with
        | Some v => (Ret v, w)
        | None => (Throw key_error, w)
        end
    | None => (Throw key_error, w)
    end.
Proof.
  intros Hf Hc. unfold get, bind, load_feature, load_context.
  rewrite Hf, Hc.
  destruct (map_find key (mapping_ c)) as [itr|]; [|done].
  case_bool_decide as Hlt.
  - apply lookup_lt_is_Some_2 in Hlt as [v ->]. done.
  - rewrite lookup_ge_None_2 by lia. done.
Qed.

Lemma has_key_run w this f c key :
  features w !! this = Some f → contexts w !! ctx_ f = Some c →
  has_key this key w =
    (Ret (bool_decide (key ∈ (context_range c).*1)), w).
Proof.
  intros Hf Hc. unfold has_key, bind, load_feature, load_context, ret.
  rewrite Hf, Hc. do 2 f_equal. unfold context_range.
  destruct (map_find key (mapping_ c)) as [itr|] eqn:Hfind.
  - symmetry. apply bool_decide_eq_true, map_find_is_Some. by exists itr.
  - symmetry. by apply bool_decide_eq_false, map_find_None.
Qed.

Lemma ctx_push_run w ctx c name :
  contexts w !! ctx = Some c →
  ctx_push ctx name w =
    (Ret tt, World (<[ctx := push name c]> (contexts w)) (features w)).
Proof.
  intros Hc. unfold ctx_push, bind, load_context, store_context.
  by rewrite Hc.
Qed.

Lemma ctx_push_all_run w ctx c names :
  contexts w !! ctx = Some c →
  ctx_push_all ctx names w =
    (Ret tt,
     World (<[ctx := foldl (λ c name, push name c) c names]> (contexts w))
       (features w)).
Proof.
  revert w c. induction names as [|name names IH]; intros w c Hc; simpl.
  - rewrite list_insert_id by done. by destruct w.
  - unfold bind. rewrite (ctx_push_run w ctx c) by done.
    rewrite (IH _ (push name c)); simpl.
    + by rewrite list_insert_insert_eq.
    + apply list_lookup_insert_eq. by eapply lookup_lt_Some.
Qed.

Lemma feature_impl_new_run w ctx c id :
  contexts w !! ctx = Some c →
  feature_impl_new ctx id w =
    (Ret (length (features w)),
     World (contexts w)
       (features w ++
          [Feature id ctx [] None (replicate (context_size c) value_null)])).
Proof.
  intros Hc. unfold feature_impl_new, bind, load_context, alloc_feature.
  by rewrite Hc.
Qed.

(** A record built after all the registrations on a new context points to
    the context of these registrations, and its value sequence is as long
    as that context is large. *)
Lemma built_after_registrations w names (id : Z) :
  let build :=
    let* ctx := make_context in
    let* _ := ctx_push_all ctx names in
    feature_impl_new ctx id in
  ∃ this f,
    result_of build w = Ret this ∧
    features (world_after build w) !! this = Some f ∧
    contexts (world_after build w) !! ctx_ f = Some (registered names) ∧
    length (data_ f) = context_size (registered names).
Proof.
  simpl. unfold result_of, world_after.
  unfold bind at 1 3 5. unfold make_context, alloc_context.
  set (w1 := World (contexts w ++ [context_new]) (features w)).
  assert (contexts w1 !! length (contexts w) = Some context_new) as Hc1.
  { simpl. rewrite lookup_app_r by done. by rewrite Nat.sub_diag. }
  unfold bind.
  rewrite (ctx_push_all_run w1 _ context_new) by done.
  set (w2 := World _ _).
  assert (contexts w2 !! length (contexts w) = Some (registered names)) as Hc2.
  { apply list_lookup_insert_eq. by eapply lookup_lt_Some. }
  rewrite (feature_impl_new_run w2 _ (registered names)) by done. simpl.
  eexists _, _. split; [done|]. split.
  { rewrite lookup_app_r by done. by rewrite Nat.sub_diag. }
  simpl. split; [done | by rewrite length_replicate].
Qed.

(** C1: for a feature whose value sequence is as long as its context is
    large (it was built after all registrations): for a registered name,
    [put(name, v)] followed by [get(name)] returns [v]; for a name that is
    not registered, [put] and [get] both throw the key error. *)
Theorem put_get_registered w this f c name (v : value) :
  features w !! this = Some f → contexts w !! ctx_ f = Some c →
  context_reachable c → length (data_ f) = context_size c →
  (name ∈ (context_range c).*1 →
     result_of (let* _ := put this name v in get this name) w = Ret v) ∧
  (name ∉ (context_range c).*1 →
     result_of (put this name v) w = Throw key_error ∧
     result_of (get this name) w = Throw key_error).
Proof.
  intros Hf Hc Hreach Hlen. unfold context_range, result_of. split.
  - intros [e Hfind]%map_find_is_Some.
    unfold bind. rewrite (put_run w this f c) by done. rewrite Hfind.
    pose proof (map_find_Some _ _ _ Hfind) as [Hin _].
    assert (e.2 < length (data_ f)) as Hlt.
    { rewrite Hlen. by apply slot_lt_size; [apply reachable_ok|]. }
    rewrite bool_decide_eq_true_2 by done.
    rewrite (get_run _ this (with_data f (<[e.2 := v]> (data_ f))) c).
    + rewrite Hfind. simpl. by rewrite list_lookup_insert_eq.
    + apply list_lookup_insert_eq. by eapply lookup_lt_Some.
    + done.
  - intros Hnone%map_find_None.
    rewrite (put_run w this f c), (get_run w this f c) by done.
    by rewrite Hnone.
Qed.

(** C2: [put(name, v)] and [get(name)] throw the key error exactly when
    the name is not in the context or the slot found for it is not below
    the length of the value sequence; otherwise they return; when they
    throw, the store, and with it the whole record, is as before. *)
Theorem put_get_key_error w this f c key (v : value) :
  features w !! this = Some f → contexts w !! ctx_ f = Some c →
  let failing :=
    key ∉ (context_range c).*1 ∨
    ∃ itr, map_find key (mapping_ c) = Some itr ∧ length (data_ f) ≤ itr.2 in
  (result_of (put this key v) w = Throw key_error ↔ failing) ∧
  (result_of (get this key) w = Throw key_error ↔ failing) ∧
  (¬ failing →
     result_of (put this key v) w = Ret tt ∧
     ∃ v', result_of (get this key) w = Ret v') ∧
  (failing →
     world_after (put this key v) w = w ∧
     world_after (get this key) w = w).
Proof.
  intros Hf Hc. unfold context_range, result_of, world_after. simpl.
  rewrite (put_run w this f c), (get_run w this f c) by done.
  destruct (map_find key (mapping_ c)) as [itr|] eqn:Hfind.
  - assert (key ∈ (mapping_ c).*1) as Hin.
    { apply map_find_is_Some. by exists itr. }
    case_bool_decide as Hlt.
    + apply lookup_lt_is_Some_2 in Hlt as Hv. destruct Hv as [v' Hv].
      rewrite Hv. simpl.
      assert (¬ (key ∉ (mapping_ c).*1 ∨
                 ∃ itr0, Some itr = Some itr0 ∧ length (data_ f) ≤ itr0.2))
        as Hok.
      { intros [?|(? & [= <-] & ?)]; [done | lia]. }
      repeat split; try done; eauto.
    + rewrite lookup_ge_None_2 by lia. simpl.
      assert (key ∉ (mapping_ c).*1 ∨
              ∃ itr0, Some itr = Some itr0 ∧ length (data_ f) ≤ itr0.2)
        as Hfail.
      { right. exists itr. split; [done | lia]. }
      repeat split; try done.
  - apply map_find_None in Hfind as Hnin. simpl.
    assert (key ∉ (mapping_ c).*1 ∨
            ∃ itr0, @None (key_type * nat) = Some itr0
                    ∧ length (data_ f) ≤ itr0.2)
      as Hfail by (by left).
    repeat split; try done.
Qed.

(** C7: [feature_impl(ctx, id)] returns a new record whose value sequence
    is as long as the context is large at that moment, holds the null
    value in every slot, and whose id is the given one; it points to the
    given context and has no geometry and no raster. *)
Theorem feature_impl_new_fresh w ctx c (id : Z) :
  contexts w !! ctx = Some c →
  ∃ this f,
    result_of (feature_impl_new ctx id) w = Ret this ∧
    features (world_after (feature_impl_new ctx id) w) !! this = Some f ∧
    length (data_ f) = context_size c ∧
    (∀ slot, slot < context_size c → data_ f !! slot = Some value_null) ∧
    id_ f = id ∧
    ctx_ f = ctx ∧ geom_cont_ f = [] ∧ raster_ f = None.
Proof.
  intros Hc. unfold result_of, world_after.
  rewrite (feature_impl_new_run w ctx c) by done. simpl.
  eexists _, _. split; [done|]. split.
  - rewrite lookup_app_r by done. by rewrite Nat.sub_diag.
  - simpl. split; [by rewrite length_replicate|].
    split; [|done]. intros slot Hslot. by apply lookup_replicate_2.
Qed.

(** C8: [has_key(name)] is true exactly when the context holds the name,
    whatever the length of the value sequence; and when a name that the
    context did not hold is registered after the record was built, its
    slot lies past the value sequence: [has_key] is then true while
    [get] and [put] throw the key error. *)
Theorem has_key_context_only w this f c key (v : value) :
  features w !! this = Some f → contexts w !! ctx_ f = Some c →
  (result_of (has_key this key) w = Ret true ↔ key ∈ (context_range c).*1) ∧
  (result_of (has_key this key) w = Ret false ↔ key ∉ (context_range c).*1) ∧
  (key ∉ (context_range c).*1 → length (data_ f) ≤ context_size c →
     let w' := world_after (ctx_push (ctx_ f) key) w in
     result_of (has_key this key) w' = Ret true ∧
     result_of (get this key) w' = Throw key_error ∧
     result_of (put this key v) w' = Throw key_error).
Proof.
  intros Hf Hc. unfold result_of.
  rewrite (has_key_run w this f c) by done. simpl.
  split; [|split].
  - split; [intros [= Hb]; by apply bool_decide_eq_true in Hb|].
    intros Hin. by rewrite bool_decide_eq_true_2.
  - split; [intros [= Hb]; by apply bool_decide_eq_false in Hb|].
    intros Hnin. by rewrite bool_decide_eq_false_2.
  - intros Hnin Hlen. unfold world_after.
    rewrite (ctx_push_run w (ctx_ f) c) by done. simpl.
    set (w' := World _ _).
    assert (features w' !! this = Some f) as Hf' by done.
    assert (contexts w' !! ctx_ f = Some (push key c)) as Hc'.
    { apply list_lookup_insert_eq. by eapply lookup_lt_Some. }
    assert (map_find key (mapping_ (push key c))
            = Some (key, context_size c)) as Hfind.
    { by apply map_find_insert_absent. }
    rewrite (has_key_run w' this f (push key c)) by done.
    rewrite (get_run w' this f (push key c)) by done.
    rewrite (put_run w' this f (push key c)) by done.
    rewrite Hfind. simpl.
    rewrite bool_decide_eq_true_2 by (apply push_keys; by left).
    rewrite lookup_ge_None_2 by done.
    rewrite bool_decide_eq_false_2 by lia. done.
Qed.

(** C9: [push(name)] with a name that the context already holds leaves
    the context as it was: every lookup, that of [name] included, finds
    what it found before, [size()] is the same, and the store is the
    same. *)
Theorem push_existing_unchanged w ctx c name :
  contexts w !! ctx = Some c → context_reachable c →
  name ∈ (context_range c).*1 →
  push name c = c ∧
  (∀ key, map_find key (mapping_ (push name c)) = map_find key (mapping_ c)) ∧
  context_size (push name c) = context_size c ∧
  context_range (push name c) = context_range c ∧
  result_of (ctx_push ctx name) w = Ret tt ∧
  world_after (ctx_push ctx name) w = w.
Proof.
  intros Hc Hreach Hin.
  assert (push name c = c) as Heq.
  { apply push_present; [apply reachable_ok, Hreach | done]. }
  unfold result_of, world_after.
  rewrite (ctx_push_run w ctx c) by done. rewrite Heq. simpl.
  rewrite list_insert_id by done. by destruct w.
Qed.

(** C10: a [put(name, v)] that returns writes [v] into the slot that the
    context gives for [name] and changes nothing else: the other slots,
    the length of the value sequence, the id, the geometries, the raster
    and the context pointer of the record, every other record and every
    context are as before. *)
Theorem put_frame w this f c key (v : value) :
  features w !! this = Some f → contexts w !! ctx_ f = Some c →
  result_of (put this key v) w = Ret tt →
  let w' := world_after (put this key v) w in
  ∃ slot f',
    map_find key (mapping_ c) = Some (key, slot) ∧
    features w' !! this = Some f' ∧
    data_ f' !! slot = Some v ∧
    (∀ i, i ≠ slot → data_ f' !! i = data_ f !! i) ∧
    length (data_ f') = length (data_ f) ∧
    id_ f' = id_ f ∧ ctx_ f' = ctx_ f ∧
    geom_cont_ f' = geom_cont_ f ∧ raster_ f' = raster_ f ∧
    (∀ other, other ≠ this → features w' !! other = features w !! other) ∧
    length (features w') = length (features w) ∧
    contexts w' = contexts w.
Proof.
  intros Hf Hc. unfold result_of, world_after. simpl.
  rewrite (put_run w this f c) by done.
  destruct (map_find key (mapping_ c)) as [[k slot]|] eqn:Hfind; [|done].
  pose proof (map_find_Some _ _ _ Hfind) as [_ Hk]. simpl in Hk. subst k.
  simpl. case_bool_decide as Hlt; [|done]. intros _. simpl.
  exists slot, (with_data f (<[slot := v]> (data_ f))).
  split; [done|]. split.
  { apply list_lookup_insert_eq. by eapply lookup_lt_Some. }
  simpl. split; [by apply list_lookup_insert_eq|].
  split; [intros i Hi; by apply list_lookup_insert_ne|].
  split; [by rewrite length_insert|].
  repeat (split; [done|]).
  split; [intros other Hother; by apply list_lookup_insert_ne|].
  split; [by rewrite length_insert | done].
Qed.

(** C6: with no geometry [envelope()] returns the default-built box;
    otherwise the accumulator is initialised from the box of the first
    geometry and then expanded, in order, with the box of every later
    geometry.  The store is not changed. *)
Theorem envelope_fold w this f :
  features w !! this = Some f →
  result_of (envelope this) w =
    Ret (match geom_cont_ f with
         | [] => box2d_default
         | geom :: rest =>
             foldl expand_to_include
               (init_from box2d_default (geom_envelope geom))
               (geom_envelope <$> rest)
         end) ∧
  world_after (envelope this) w = w.
Proof.
  intros Hf. unfold result_of, world_after, envelope, bind, load_feature.
  by rewrite Hf, envelope_loop_fold.
Qed.

(** C5 (as amended): for a record whose value sequence is as long as its
    context is large, [to_string()] returns the line "Feature (", then
    one line made of two blanks, the name, a colon and the value, for each
    entry of the context, in ascending order of the names (the order of
    the range of the context), then the line ")"; every line ends with a
    newline, and the value of a line is the one in the slot of its
    name. *)
Theorem to_string_lines w this f c :
  features w !! this = Some f → contexts w !! ctx_ f = Some c →
  context_reachable c → length (data_ f) = context_size c →
  ∃ vals,
    Forall2 (λ e v, data_ f !! e.2 = Some v) (context_range c) vals ∧
    result_of (to_string this) w =
      Ret ("Feature (" +:+ endl +:+
           stream_concat (zip_with attribute_line (context_range c).*1 vals)
           +:+ ")" +:+ endl) ∧
    StronglySorted key_lt (context_range c).*1 ∧
    world_after (to_string this) w = w.
Proof.
  intros Hf Hc Hreach Hlen. apply reachable_ok in Hreach as Hok.
  destruct (slots_in_range_values (mapping_ c) (data_ f)) as [vals Hvals].
  { intros e He. rewrite Hlen. by apply slot_lt_size. }
  exists vals. split; [done|].
  unfold result_of, world_after, to_string, bind, load_feature, load_context.
  rewrite Hf, Hc, (to_string_loop_lines _ _ vals) by done.
  unfold ret, context_range. simpl.
  split; [|split; [apply Hok | done]].
  by rewrite !string_app_assoc.
Qed.
End Properties.

(** ** Boxes with integer coordinates: the envelope is the union *)

Lemma zbox_init_valid (result box : zbox) :
  zbox_valid box → init_from result box = box.
Proof.
  destruct box as [x0 y0 x1 y1]. intros [Hx Hy]. simpl in *.
  unfold init_from, zbox_init. simpl.
  f_equal; case_bool_decide; lia.
Qed.

Lemma zbox_expand_contains (acc other : zbox) :
  zbox_contains (zbox_expand_to_include acc other) acc ∧
  zbox_contains (zbox_expand_to_include acc other) other ∧
  ∀ b, zbox_contains b acc → zbox_contains b other →
       zbox_contains b (zbox_expand_to_include acc other).
Proof.
  unfold zbox_contains, zbox_expand_to_include. simpl.
  repeat case_bool_decide; repeat split; intros; lia.
Qed.

Lemma zbox_contains_trans (a b c : zbox) :
  zbox_contains a b → zbox_contains b c → zbox_contains a c.
Proof. unfold zbox_contains. lia. Qed.

Lemma zbox_fold_union (acc : zbox) (boxes : list zbox) :
  zbox_contains (foldl zbox_expand_to_include acc boxes) acc ∧
  Forall (zbox_contains (foldl zbox_expand_to_include acc boxes)) boxes ∧
  ∀ b, zbox_contains b acc → Forall (zbox_contains b) boxes →
       zbox_contains b (foldl zbox_expand_to_include acc boxes).
Proof.
  revert acc. induction boxes as [|box boxes IH]; intros acc; simpl.
  - split; [unfold zbox_contains; lia|]. split; [constructor | auto].
  - destruct (IH (zbox_expand_to_include acc box)) as (Hacc & Hall & Hleast).
    destruct (zbox_expand_contains acc box) as (H1 & H2 & H3).
    split; [by eapply zbox_contains_trans|].
    split; [constructor; [by eapply zbox_contains_trans | done]|].
    intros b Hb Hbs. apply Forall_cons in Hbs as [Hbox Hbs].
    apply Hleast; [by apply H3 | done].
Qed.

(** With one geometry or more, each with its corners in order, the box that
    [envelope()] returns is the smallest box that contains the box of every
    geometry. *)
Lemma zbox_envelope_union (w : zworld) this (f : zfeature) :
  features w !! this = Some f →
  geom_cont_ f ≠ [] →
  Forall (λ geom, zbox_valid (zgeom_box geom)) (geom_cont_ f) →
  ∃ result,
    result_of (envelope this) w = Ret result ∧
    Forall (λ geom, zbox_contains result (zgeom_box geom)) (geom_cont_ f) ∧
    ∀ b, Forall (λ geom, zbox_contains b (zgeom_box geom)) (geom_cont_ f) →
         zbox_contains b result.
Proof.
  intros Hf Hne Hvalid.
  unfold zworld, zfeature in *.
  unfold result_of, envelope, bind, load_feature.
  rewrite Hf, envelope_loop_fold.
  destruct (geom_cont_ f) as [|geom rest]; [done|].
  apply Forall_cons in Hvalid as [Hgeom _].
  rewrite zbox_init_valid by done. simpl.
  destruct (zbox_fold_union (zgeom_box geom) (zgeom_box <$> rest))
    as (Hacc & Hall & Hleast).
  eexists. split; [done|]. split.
  - constructor; [done|].
    exact (proj1 (Forall_fmap zgeom_box _ rest) Hall).
  - intros b Hb. apply Forall_cons in Hb as [Hb1 Hb2].
    apply Hleast; [done|].
    exact (proj2 (Forall_fmap zgeom_box _ rest) Hb2).
Qed.

(** ** The model at work on a small store *)

Ltac decide_closed := apply (bool_decide_unpack _); vm_compute; exact I.

Lemma sample_build_world :
  sample_build empty_world = (Ret 0, sample_world).
Proof. reflexivity. Qed.

Lemma put_get_registered_witness :
  result_of (let* _ := put 0 "a" (attr_bool true) in get 0 "a") sample_world
    = Ret (attr_bool true).
Proof.
  apply (put_get_registered sample_world 0 sample_feature sample_context "a").
  - reflexivity.
  - reflexivity.
  - apply registered_reachable.
  - reflexivity.
  - decide_closed.
Defined.

Lemma put_get_key_error_witness :
  result_of (get 0 "missing") sample_world = Throw key_error.
Proof.
  apply (put_get_key_error sample_world 0 sample_feature sample_context
           "missing" attr_null eq_refl eq_refl).
  left. decide_closed.
Defined.

Lemma to_string_lines_witness :
  ∃ vals,
    Forall2 (λ e v, data_ sample_feature !! e.2 = Some v)
      (context_range sample_context) vals ∧
    result_of (to_string 0) sample_world =
      Ret ("Feature (" +:+ endl +:+
           stream_concat
             (zip_with attribute_line (context_range sample_context).*1 vals)
           +:+ ")" +:+ endl) ∧
    StronglySorted key_lt (context_range sample_context).*1 ∧
    world_after (to_string 0) sample_world = sample_world.
Proof.
  apply (to_string_lines sample_world 0 sample_feature sample_context).
  - reflexivity.
  - reflexivity.
  - apply registered_reachable.
  - reflexivity.
Defined.

(** C5 (as stated) fails: "b" was registered before "a", and the text
    that [to_string()] returns has the line of "a" before the line of
    "b"; it is not the text of the [name: value] lines in registration
    order. *)
Lemma to_string_counterexample :
  result_of (to_string 0) sample_world =
    Ret ("Feature (" +:+ endl +:+
         "  a:x" +:+ endl +:+
         "  b:1" +:+ endl +:+
         ")" +:+ endl) ∧
  describe_spec sample_context sample_feature = "b: 1" +:+ endl +:+ "a: x" ∧
  result_of (to_string 0) sample_world
    ≠ Ret (describe_spec sample_context sample_feature).
Proof. split; [reflexivity | split; [reflexivity | discriminate]]. Qed.

(** On a context that has grown since the record was built, [to_string()]
    reads past the end of the value sequence. *)
Lemma to_string_grown_context :
  result_of (let* f := grown_build in to_string f) empty_world = Undefined.
Proof. reflexivity. Qed.

Lemma envelope_fold_witness :
  result_of (envelope 0) sample_world = Ret (ZBox 0 0 3 3) ∧
  world_after (envelope 0) sample_world = sample_world.
Proof.
  exact (envelope_fold sample_world 0 sample_feature eq_refl).
Defined.

Lemma feature_impl_new_fresh_witness :
  ∃ this f,
    result_of (feature_impl_new 0 9) sample_world = Ret this ∧
    features (world_after (feature_impl_new 0 9) sample_world) !! this
      = Some f ∧
    length (data_ f) = context_size sample_context ∧
    (∀ slot, slot < context_size sample_context →
       data_ f !! slot = Some value_null) ∧
    id_ f = 9%Z ∧
    ctx_ f = 0 ∧ geom_cont_ f = [] ∧ raster_ f = None.
Proof.
  apply (feature_impl_new_fresh sample_world 0 sample_context 9).
  reflexivity.
Defined.

Lemma has_key_context_only_witness :
  let w' := world_after (ctx_push 0 "late") sample_world in
  result_of (has_key 0 "late") w' = Ret true ∧
  result_of (get 0 "late") w' = Throw key_error ∧
  result_of (put 0 "late" attr_null) w' = Throw key_error.
Proof.
  apply (has_key_context_only sample_world 0 sample_feature sample_context
           "late" attr_null eq_refl eq_refl).
  - decide_closed.
  - vm_compute. lia.
Defined.

Lemma push_existing_unchanged_witness :
  push "a" sample_context = sample_context ∧
  (∀ key, map_find key (mapping_ (push "a" sample_context))
          = map_find key (mapping_ sample_context)) ∧
  context_size (push "a" sample_context) = context_size sample_context ∧
  context_range (push "a" sample_context) = context_range sample_context ∧
  result_of (ctx_push 0 "a") sample_world = Ret tt ∧
  world_after (ctx_push 0 "a") sample_world = sample_world.
Proof.
  apply (push_existing_unchanged sample_world 0 sample_context "a").
  - reflexivity.
  - apply registered_reachable.
  - decide_closed.
Defined.

Lemma put_frame_witness :
  let w' := world_after (put 0 "b" (attr_int 5)) sample_world in
  ∃ slot f',
    map_find "b" (mapping_ sample_context) = Some ("b", slot) ∧
    features w' !! 0 = Some f' ∧
    data_ f' !! slot = Some (attr_int 5) ∧
    (∀ i, i ≠ slot → data_ f' !! i = data_ sample_feature !! i) ∧
    length (data_ f') = length (data_ sample_feature) ∧
    id_ f' = id_ sample_feature ∧ ctx_ f' = ctx_ sample_feature ∧
    geom_cont_ f' = geom_cont_ sample_feature ∧
    raster_ f' = raster_ sample_feature ∧
    (∀ other, other ≠ 0 →
       features w' !! other = features sample_world !! other) ∧
    length (features w') = length (features sample_world) ∧
    contexts w' = contexts sample_world.
Proof.
  apply (put_frame sample_world 0 sample_feature sample_context "b"
           (attr_int 5)); reflexivity.
Defined.


(** * Further properties of the context *)

Lemma map_ok_NoDup m : map_ok m → NoDup m.*1.
Proof.
  unfold map_ok. induction m as [|[k v] m IH]; simpl; intros Hok.
  - constructor.
  - apply StronglySorted_inv in Hok as [Hok Hall].
    constructor; [|by apply IH].
    intros Hin. rewrite Forall_forall in Hall.
    by apply (key_lt_irrefl k), Hall.
Qed.

Lemma slots_dense_NoDup m : slots_dense m → NoDup m.*2.
Proof. unfold slots_dense. intros ->. apply NoDup_seq. Qed.

Lemma slots_dense_inj m e1 e2 :
  slots_dense m → e1 ∈ m → e2 ∈ m → e1.2 = e2.2 → e1 = e2.
Proof.
  intros Hnd%slots_dense_NoDup [i Hi]%list_elem_of_lookup_1
         [j Hj]%list_elem_of_lookup_1 Heq.
  assert (i = j) as ->.
  { apply (NoDup_lookup m.*2 i j e1.2 Hnd).
    - by rewrite list_lookup_fmap, Hi.
    - by rewrite list_lookup_fmap, Hj, Heq. }
  congruence.
Qed.

Lemma foldl_push_keys names c key :
  key ∈ (mapping_ (foldl (λ c name, push name c) c names)).*1
  ↔ key ∈ (mapping_ c).*1 ∨ key ∈ names.
Proof.
  revert c. induction names as [|name names IH]; intros c; simpl.
  - rewrite elem_of_nil. tauto.
  - rewrite IH, push_keys, elem_of_cons. tauto.
Qed.

(** [push(name)] with a name that the context does not hold: [size()] grows
    by one, the name is found with the former size as its slot, every other
    name is found as before, and the names held are the former ones and
    [name]. *)
Theorem push_fresh name c :
  name ∉ (context_range c).*1 →
  context_size (push name c) = S (context_size c) ∧
  map_find name (mapping_ (push name c)) = Some (name, context_size c) ∧
  (∀ key, key ≠ name →
     map_find key (mapping_ (push name c)) = map_find key (mapping_ c)) ∧
  (∀ key, key ∈ (context_range (push name c)).*1
          ↔ key = name ∨ key ∈ (context_range c).*1).
Proof.
  unfold context_range. intros Hnin. split; [|split; [|split]].
  - by apply push_size_absent.
  - by apply map_find_insert_absent.
  - intros key Hne. by apply push_other_entries.
  - intros key. apply push_keys.
Qed.

Lemma push_fresh_witness :
  context_size (push "c" (registered ["b"; "a"])) = 3 ∧
  map_find "c" (mapping_ (push "c" (registered ["b"; "a"]))) = Some ("c", 2).
Proof.
  destruct (push_fresh "c" (registered ["b"; "a"])) as (Hsize & Hfind & _).
  - apply (bool_decide_unpack _). vm_compute. exact I.
  - split; [exact Hsize | exact Hfind].
Defined.

(** Every context that [context()] and [push] can build has its names in
    strictly ascending order without repetition, uses exactly the slots
    [0 .. size()-1], finds every entry under its name, and gives different
    names different slots. *)
Theorem reachable_invariant c :
  context_reachable c →
  StronglySorted key_lt (context_range c).*1 ∧
  NoDup (context_range c).*1 ∧
  (context_range c).*2 ≡ₚ seq 0 (context_size c) ∧
  (∀ e, e ∈ context_range c →
     e.2 < context_size c ∧ map_find e.1 (mapping_ c) = Some e) ∧
  (∀ e1 e2, e1 ∈ context_range c → e2 ∈ context_range c →
     e1.2 = e2.2 → e1 = e2).
Proof.
  intros [Hsorted Hdense]%reachable_ok. unfold context_range.
  split; [done|]. split; [by apply map_ok_NoDup|]. split; [done|]. split.
  - intros [k v] He. split; [by apply slot_lt_size|by apply map_ok_find].
  - intros e1 e2. by apply slots_dense_inj.
Qed.

Lemma reachable_invariant_witness :
  StronglySorted key_lt (context_range (registered ["b"; "a"])).*1 ∧
  NoDup (context_range (registered ["b"; "a"])).*1 ∧
  (context_range (registered ["b"; "a"])).*2 ≡ₚ [0; 1] ∧
  (∀ e, e ∈ context_range (registered ["b"; "a"]) →
     e.2 < 2 ∧ map_find e.1 (mapping_ (registered ["b"; "a"])) = Some e) ∧
  (∀ e1 e2, e1 ∈ context_range (registered ["b"; "a"]) →
     e2 ∈ context_range (registered ["b"; "a"]) → e1.2 = e2.2 → e1 = e2).
Proof.
  apply (reachable_invariant (registered ["b"; "a"])).
  apply registered_reachable.
Defined.

(** A name keeps the slot it was given through every later [push],
    whatever names are pushed. *)
Theorem slot_stable c names name e :
  context_reachable c →
  map_find name (mapping_ c) = Some e →
  map_find name (mapping_ (foldl (λ c n, push n c) c names)) = Some e.
Proof.
  revert c. induction names as [|n names IH]; intros c Hreach Hfind; [done|].
  simpl. apply IH; [by constructor|].
  destruct (decide (name = n)) as [<-|Hne].
  - rewrite push_present; [done|by apply reachable_ok|].
    apply map_find_is_Some. by exists e.
  - by rewrite push_other_entries.
Qed.

Lemma slot_stable_witness :
  map_find "b"
    (mapping_ (foldl (λ c n, push n c) (registered ["b"; "a"]) ["0"; "b"; "z"]))
  = Some ("b", 0).
Proof.
  apply (slot_stable (registered ["b"; "a"]) ["0"; "b"; "z"] "b" ("b", 0)).
  - apply registered_reachable.
  - reflexivity.
Defined.

(** After any sequence of [push] calls on a fresh context, the context
    holds exactly the names pushed, and [size()] is the number of different
    names among them. *)
Theorem registered_names names :
  (∀ name, name ∈ (context_range (registered names)).*1 ↔ name ∈ names) ∧
  context_size (registered names) = length (remove_dups names).
Proof.
  assert (∀ name, name ∈ (mapping_ (registered names)).*1 ↔ name ∈ names)
    as Hkeys.
  { intros name. unfold registered. rewrite foldl_push_keys. simpl.
    rewrite elem_of_nil. tauto. }
  split; [done|].
  pose proof (reachable_ok _ (registered_reachable names)) as [Hsorted _].
  unfold context_size.
  rewrite <-(length_fmap fst).
  apply Permutation_length, NoDup_Permutation.
  - by apply map_ok_NoDup.
  - apply NoDup_remove_dups.
  - intros name. by rewrite Hkeys, elem_of_remove_dups.
Qed.


(** * Further properties of the feature record *)

Section MoreProperties.
Context {value geometry_type raster box2d T : Type}.
Context `{!ValueType value, !Box2d T box2d, !GeometryType geometry_type box2d}.

Abbreviation world := (world value geometry_type raster).
Abbreviation feature_impl := (feature_impl value geometry_type raster).

Implicit Types (w : world) (f : feature_impl) (c : context).
Implicit Types (this other : feature_ptr) (ctx : context_ptr).
Implicit Types (key name : key_type).

Lemma stored_feature w this f f' :
  features w !! this = Some f →
  <[this := f']> (features w) !! this = Some f'.
Proof. intros Hf. apply list_lookup_insert_eq. by eapply lookup_lt_Some. Qed.

Lemma set_id_run w this f (id : Z) :
  features w !! this = Some f →
  set_id this id w =
    (Ret tt,
     World (contexts w)
       (<[this := Feature id (ctx_ f) (geom_cont_ f) (raster_ f) (data_ f)]>
          (features w))).
Proof. intros Hf. unfold set_id, bind, load_feature. by rewrite Hf. Qed.

Lemma set_raster_run w this f (r : option raster) :
  features w !! this = Some f →
  set_raster this r w =
    (Ret tt,
     World (contexts w)
       (<[this := Feature (id_ f) (ctx_ f) (geom_cont_ f) r (data_ f)]>
          (features w))).
Proof. intros Hf. unfold set_raster, bind, load_feature. by rewrite Hf. Qed.

Lemma add_geometry_run w this f (geom : geometry_type) :
  features w !! this = Some f →
  add_geometry this geom w =
    (Ret tt,
     World (contexts w)
       (<[this := Feature (id_ f) (ctx_ f) (geom_cont_ f ++ [geom])
                    (raster_ f) (data_ f)]>
          (features w))).
Proof. intros Hf. unfold add_geometry, bind, load_feature. by rewrite Hf. Qed.

Lemma getter_run {A} (field : feature_impl → A) w this f :
  features w !! this = Some f →
  bind (load_feature this) (λ f, ret (field f)) w = (Ret (field f), w).
Proof. intros Hf. unfold bind, load_feature. by rewrite Hf. Qed.

Lemma envelope_run w this f :
  features w !! this = Some f →
  envelope this w =
    (Ret (match geom_cont_ f with
          | [] => box2d_default
          | geom :: rest =>
              foldl expand_to_include
                (init_from box2d_default (geom_envelope geom))
                (geom_envelope <$> rest)
          end), w).
Proof.
  intros Hf. unfold envelope, bind, load_feature.
  by rewrite Hf, envelope_loop_fold.
Qed.

(** The loop of [to_string] reads past the end of the value sequence
    exactly when some entry has its slot there. *)
Lemma to_string_loop_None (itr : map_type) (data : list value) ss :
  to_string_loop itr data ss = None ↔ ∃ e, e ∈ itr ∧ length data ≤ e.2.
Proof.
  revert ss. induction itr as [|[first second] itr IH]; intros ss; simpl.
  - split; [done|]. intros (e & He & _). by apply elem_of_nil in He.
  - destruct (data !! second) as [v|] eqn:Hv.
    + rewrite IH. apply lookup_lt_Some in Hv. split.
      * intros (e & He & Hle). exists e. split; [by right | done].
      * intros (e & [->|He]%elem_of_cons & Hle); [simpl in Hle; lia|].
        by exists e.
    + apply lookup_ge_None in Hv. split; [|done]. intros _.
      exists (first, second). split; [left | done].
Qed.

(** The outcome of [get] depends on the record and on the contexts only. *)
Lemma get_store_irrelevant w1 w2 this key :
  features w1 !! this = features w2 !! this →
  contexts w1 = contexts w2 →
  result_of (get this key) w1 = result_of (get this key) w2.
Proof.
  intros Hf Hc. unfold result_of, get, bind, load_feature, load_context.
  rewrite Hf. destruct (features w2 !! this) as [f|]; [|done].
  simpl. rewrite Hc.
  destruct (contexts w2 !! ctx_ f) as [c|]; [|done].
  destruct (map_find key (mapping_ c)) as [itr|]; [|done].
  case_bool_decide; [|done]. by destruct (data_ f !! itr.2).
Qed.

(** A name pushed on the shared context is at once seen by every record
    that points to this context: [has_key] of the name is true, whether the
    name is new or was there. *)
Theorem has_key_after_push w this f c name :
  features w !! this = Some f → contexts w !! ctx_ f = Some c →
  result_of (let* _ := ctx_push (ctx_ f) name in has_key this name) w
    = Ret true.
Proof.
  intros Hf Hc. unfold result_of, bind at 1.
  rewrite (ctx_push_run w (ctx_ f) c) by done.
  rewrite (has_key_run _ this f (push name c)).
  - simpl. rewrite bool_decide_eq_true_2; [done|]. apply push_keys. by left.
  - done.
  - apply list_lookup_insert_eq. by eapply lookup_lt_Some.
Qed.

(** [set_id(id)] followed by [id()] returns [id]; [set_id] changes the id of
    this record and nothing else. *)
Theorem set_id_get_id w this f (id : Z) :
  features w !! this = Some f →
  result_of (let* _ := set_id this id in get_id this) w = Ret id ∧
  ∃ f',
    features (world_after (set_id this id) w) !! this = Some f' ∧
    id_ f' = id ∧ data_ f' = data_ f ∧ ctx_ f' = ctx_ f ∧
    geom_cont_ f' = geom_cont_ f ∧ raster_ f' = raster_ f ∧
    (∀ other, other ≠ this →
       features (world_after (set_id this id) w) !! other
       = features w !! other) ∧
    contexts (world_after (set_id this id) w) = contexts w.
Proof.
  intros Hf. unfold result_of, world_after, bind at 1.
  rewrite (set_id_run w this f) by done. split.
  - unfold get_id. by erewrite getter_run by (by eapply stored_feature).
  - eexists. split; [by eapply stored_feature|]. simpl.
    repeat (split; [done|]). split; [|done].
    intros other Hne. by apply list_lookup_insert_ne.
Qed.

(** [set_raster(r)] followed by [get_raster()] returns [r], the null
    pointer included; [set_raster] changes the raster of this record and
    nothing else. *)
Theorem set_raster_get_raster w this f (r : option raster) :
  features w !! this = Some f →
  result_of (let* _ := set_raster this r in get_raster this) w = Ret r ∧
  ∃ f',
    features (world_after (set_raster this r) w) !! this = Some f' ∧
    raster_ f' = r ∧ id_ f' = id_ f ∧ data_ f' = data_ f ∧
    ctx_ f' = ctx_ f ∧ geom_cont_ f' = geom_cont_ f ∧
    (∀ other, other ≠ this →
       features (world_after (set_raster this r) w) !! other
       = features w !! other) ∧
    contexts (world_after (set_raster this r) w) = contexts w.
Proof.
  intros Hf. unfold result_of, world_after, bind at 1.
  rewrite (set_raster_run w this f) by done. split.
  - unfold get_raster. by erewrite getter_run by (by eapply stored_feature).
  - eexists. split; [by eapply stored_feature|]. simpl.
    repeat (split; [done|]). split; [|done].
    intros other Hne. by apply list_lookup_insert_ne.
Qed.

(** [add_geometry(geom)] makes [num_geometries()] one larger and puts [geom]
    at the former count; the geometries that were there keep their index,
    and the id, the values, the raster and the context pointer are as
    before. *)
Theorem add_geometry_appends w this f (geom : geometry_type) :
  features w !! this = Some f →
  result_of (add_geometry this geom) w = Ret tt ∧
  ∃ f',
    features (world_after (add_geometry this geom) w) !! this = Some f' ∧
    num_geometries f' = S (num_geometries f) ∧
    get_geometry f' (num_geometries f) = Some geom ∧
    (∀ index, index < num_geometries f →
       get_geometry f' index = get_geometry f index) ∧
    id_ f' = id_ f ∧ data_ f' = data_ f ∧ ctx_ f' = ctx_ f ∧
    raster_ f' = raster_ f ∧
    contexts (world_after (add_geometry this geom) w) = contexts w.
Proof.
  intros Hf. unfold result_of, world_after.
  rewrite (add_geometry_run w this f) by done. split; [done|].
  eexists. split; [by eapply stored_feature|].
  unfold num_geometries, get_geometry. simpl.
  split; [rewrite length_app; simpl; lia|].
  split; [by apply list_lookup_middle|].
  split; [intros index Hlt; by apply lookup_app_l | done].
Qed.

(** [envelope()] after [add_geometry(geom)]: on a record without geometry
    it is the box initialised from the box of [geom]; on a record with
    geometries it is the former envelope expanded with the box of [geom]. *)
Theorem envelope_add_geometry w this f (geom : geometry_type) :
  features w !! this = Some f →
  ∃ before,
    result_of (envelope this) w = Ret before ∧
    result_of (let* _ := add_geometry this geom in envelope this) w =
      Ret (match geom_cont_ f with
           | [] => init_from box2d_default (geom_envelope geom)
           | _ :: _ => expand_to_include before (geom_envelope geom)
           end).
Proof.
  intros Hf. unfold result_of, bind at 1.
  rewrite (envelope_run w this f) by done.
  rewrite (add_geometry_run w this f) by done.
  eexists. split; [done|].
  erewrite envelope_run by (by eapply stored_feature). simpl.
  destruct (geom_cont_ f) as [|first rest]; [done|]. simpl.
  by rewrite fmap_app, foldl_app.
Qed.

(** [to_string()] reads past the end of the value sequence exactly when
    the context holds an entry whose slot is not below the length of the
    value sequence; otherwise it returns a text. *)
Theorem to_string_out_of_range w this f c :
  features w !! this = Some f → contexts w !! ctx_ f = Some c →
  (result_of (to_string this) w = Undefined
     ↔ ∃ e, e ∈ context_range c ∧ length (data_ f) ≤ e.2) ∧
  ((∀ e, e ∈ context_range c → e.2 < length (data_ f)) →
     ∃ text, result_of (to_string this) w = Ret text).
Proof.
  intros Hf Hc. unfold result_of, to_string, bind, load_feature, load_context.
  rewrite Hf, Hc. unfold context_range.
  destruct (to_string_loop (mapping_ c) (data_ f) ("Feature (" +:+ endl))
    as [ss|] eqn:Hloop; simpl.
  - split; [|by eauto]. split; [done|].
    intros Hout.
    apply (to_string_loop_None _ _ ("Feature (" +:+ endl)) in Hout.
    by rewrite Hout in Hloop.
  - apply to_string_loop_None in Hloop as Hout. split; [done|].
    intros Hin. destruct Hout as (e & He & Hle).
    apply Hin in He. lia.
Qed.

(** [size()] is the length that the value sequence got when the record was
    built: [put], [set_id], [add_geometry], [set_raster] and a [push] on the
    context of the record all leave it as it is. *)
Theorem feature_size_fixed w this f c :
  features w !! this = Some f → contexts w !! ctx_ f = Some c →
  let size_after {A} (m : M value geometry_type raster A) :=
    result_of (feature_size this) (world_after m w) in
  result_of (feature_size this) w = Ret (length (data_ f)) ∧
  (∀ key v, size_after (put this key v) = Ret (length (data_ f))) ∧
  (∀ name, size_after (ctx_push (ctx_ f) name) = Ret (length (data_ f))) ∧
  (∀ id, size_after (set_id this id) = Ret (length (data_ f))) ∧
  (∀ geom, size_after (add_geometry this geom) = Ret (length (data_ f))) ∧
  (∀ r, size_after (set_raster this r) = Ret (length (data_ f))).
Proof.
  intros Hf Hc. simpl. unfold result_of, world_after, feature_size.
  split; [by erewrite getter_run|]. split; [|split; [|split; [|split]]].
  - intros key v. rewrite (put_run w this f c) by done.
    destruct (map_find key (mapping_ c)) as [itr|];
      [case_bool_decide|]; simpl; try by erewrite getter_run.
    erewrite getter_run by (by eapply stored_feature). simpl.
    by rewrite length_insert.
  - intros name. rewrite (ctx_push_run w (ctx_ f) c) by done. simpl.
    by erewrite getter_run.
  - intros id. rewrite (set_id_run w this f) by done. simpl.
    by erewrite getter_run by (by eapply stored_feature).
  - intros geom. rewrite (add_geometry_run w this f) by done. simpl.
    by erewrite getter_run by (by eapply stored_feature).
  - intros r. rewrite (set_raster_run w this f) by done. simpl.
    by erewrite getter_run by (by eapply stored_feature).
Qed.

Lemma put_success w this f c key (v : value) :
  features w !! this = Some f → contexts w !! ctx_ f = Some c →
  result_of (put this key v) w = Ret tt →
  ∃ slot, map_find key (mapping_ c) = Some (key, slot) ∧
          slot < length (data_ f).
Proof.
  intros Hf Hc. unfold result_of. rewrite (put_run w this f c) by done.
  destruct (map_find key (mapping_ c)) as [[k slot]|] eqn:Hfind; [|done].
  pose proof (map_find_Some _ _ _ Hfind) as [_ Hk]. simpl in *. subst k.
  case_bool_decide; [|done]. intros _. by exists slot.
Qed.

(** [put] writes to the record [this] only, if it writes at all. *)
Lemma put_world w this key (v : value) :
  contexts (world_after (put this key v) w) = contexts w ∧
  ∀ other, other ≠ this →
    features (world_after (put this key v) w) !! other = features w !! other.
Proof.
  unfold world_after, put, bind, load_feature, load_context.
  destruct (features w !! this) as [f|]; [|done]. simpl.
  destruct (contexts w !! ctx_ f) as [c|]; [|done]. simpl.
  destruct (map_find key (mapping_ c)) as [itr|]; [|done].
  case_bool_decide; [|done]. simpl. split; [done|].
  intros other Hne. by apply list_lookup_insert_ne.
Qed.

(** Two [put] calls that each succeed, followed by [get] of the first name:
    when the names are the same the second value is read (the last write
    wins), and when they differ the first value is read, because different
    names never share a slot. *)
Theorem put_put_get w this f c k1 k2 (v1 v2 : value) :
  features w !! this = Some f → contexts w !! ctx_ f = Some c →
  context_reachable c →
  result_of (put this k1 v1) w = Ret tt →
  result_of (put this k2 v2) w = Ret tt →
  result_of (let* _ := put this k1 v1 in
             let* _ := put this k2 v2 in
             get this k1) w
    = Ret (if decide (k1 = k2) then v2 else v1).
Proof.
  intros Hf Hc Hreach H1 H2.
  destruct (put_success w this f c k1 v1 Hf Hc H1) as (s1 & Hfind1 & Hlt1).
  destruct (put_success w this f c k2 v2 Hf Hc H2) as (s2 & Hfind2 & Hlt2).
  unfold result_of, bind at 1.
  rewrite (put_run w this f c), Hfind1 by done. simpl.
  rewrite bool_decide_eq_true_2 by done.
  set (f1 := with_data f (<[s1 := v1]> (data_ f))).
  set (w1 := World _ _).
  assert (features w1 !! this = Some f1) as Hf1 by (by eapply stored_feature).
  unfold bind at 1.
  rewrite (put_run w1 this f1 c), Hfind2 by done. simpl.
  rewrite bool_decide_eq_true_2 by (by rewrite length_insert).
  set (f2 := with_data f1 _). set (w2 := World _ _).
  assert (features w2 !! this = Some f2) as Hf2
    by exact (stored_feature w1 this f1 f2 Hf1).
  rewrite (get_run w2 this f2 c), Hfind1 by done. simpl.
  destruct (decide (k1 = k2)) as [->|Hne].
  - assert (s1 = s2) as -> by congruence.
    rewrite list_lookup_insert_eq by (by rewrite length_insert). done.
  - assert (s2 ≠ s1) as Hslot.
    { intros ->. apply Hne.
      apply map_find_Some in Hfind1 as [Hin1 _].
      apply map_find_Some in Hfind2 as [Hin2 _].
      apply reachable_ok in Hreach as [_ Hdense].
      by pose proof (slots_dense_inj _ _ _ Hdense Hin1 Hin2 eq_refl)
        as [= ?]. }
    rewrite list_lookup_insert_ne by done.
    by rewrite list_lookup_insert_eq.
Qed.

(** A [put] on one record does not change what [get] returns on another
    record, also when both point to the same context. *)
Theorem put_other_record w this other key key' (v : value) :
  other ≠ this →
  result_of (get other key') (world_after (put this key v) w)
    = result_of (get other key') w.
Proof.
  intros Hne. destruct (put_world w this key v) as [Hc Hf].
  apply get_store_irrelevant; [by apply Hf | done].
Qed.

(** On a record that was just built, [get] returns the null value for
    every name that the context holds, and throws the key error for any
    other name. *)
Theorem fresh_record_get w ctx c (id : Z) name :
  contexts w !! ctx = Some c → context_reachable c →
  result_of (let* this := feature_impl_new ctx id in get this name) w
    = if decide (name ∈ (context_range c).*1)
      then Ret value_null else Throw key_error.
Proof.
  intros Hc Hreach. unfold result_of, bind at 1, context_range.
  rewrite (feature_impl_new_run w ctx c) by done.
  set (f := Feature id ctx [] None _). set (w' := World _ _).
  assert (features w' !! length (features w) = Some f) as Hf.
  { simpl. rewrite lookup_app_r by done. by rewrite Nat.sub_diag. }
  rewrite (get_run w' _ f c) by done.
  destruct (decide (name ∈ (mapping_ c).*1)) as [Hin|Hnin].
  - apply map_find_is_Some in Hin as [e Hfind]. rewrite Hfind.
    apply map_find_Some in Hfind as [He _].
    apply (slot_lt_size c e (reachable_ok c Hreach)) in He.
    simpl. by rewrite lookup_replicate_2.
  - apply map_find_None in Hnin. by rewrite Hnin.
Qed.
End MoreProperties.

(** ** The further properties on the small store *)

Lemma has_key_after_push_witness :
  result_of (let* _ := ctx_push 0 "late" in has_key 0 "late") sample_world
    = Ret true.
Proof.
  exact (has_key_after_push sample_world 0 sample_feature sample_context
           "late" eq_refl eq_refl).
Defined.

Lemma set_id_get_id_witness :
  result_of (let* _ := set_id 0 42 in get_id 0) sample_world = Ret 42%Z.
Proof.
  exact (proj1 (set_id_get_id sample_world 0 sample_feature 42 eq_refl)).
Defined.

Lemma set_raster_get_raster_witness :
  result_of (let* _ := set_raster 0 (Some tt) in get_raster 0) sample_world
    = Ret (Some tt).
Proof.
  exact (proj1 (set_raster_get_raster sample_world 0 sample_feature (Some tt)
                  eq_refl)).
Defined.

Lemma add_geometry_appends_witness :
  result_of (add_geometry 0 (ZGeometry (ZBox 5 5 6 6))) sample_world = Ret tt.
Proof.
  exact (proj1 (add_geometry_appends sample_world 0 sample_feature
                  (ZGeometry (ZBox 5 5 6 6)) eq_refl)).
Defined.

Lemma envelope_add_geometry_witness :
  ∃ before,
    result_of (envelope 0) sample_world = Ret before ∧
    result_of (let* _ := add_geometry 0 (ZGeometry (ZBox 5 (-1) 6 2)) in
               envelope 0) sample_world
      = Ret (zbox_expand_to_include before (ZBox 5 (-1) 6 2)).
Proof.
  exact (envelope_add_geometry sample_world 0 sample_feature
           (ZGeometry (ZBox 5 (-1) 6 2)) eq_refl).
Defined.

Lemma to_string_out_of_range_witness :
  ∃ text, result_of (to_string 0) sample_world = Ret text.
Proof.
  apply (proj2 (to_string_out_of_range sample_world 0 sample_feature
                  sample_context eq_refl eq_refl)).
  intros e He. change (e ∈ [("a", 1); ("b", 0)]) in He.
  apply elem_of_cons in He as [->|He]; [simpl; lia|].
  apply list_elem_of_singleton in He as ->. simpl. lia.
Defined.

Lemma feature_size_fixed_witness :
  result_of (feature_size 0) (world_after (ctx_push 0 "late") sample_world)
    = Ret 2.
Proof.
  destruct (feature_size_fixed sample_world 0 sample_feature sample_context
              eq_refl eq_refl) as (_ & _ & Hpush & _).
  exact (Hpush "late").
Defined.

Lemma put_put_get_witness :
  result_of (let* _ := put 0 "a" (attr_int 3) in
             let* _ := put 0 "b" (attr_int 4) in
             get 0 "a") sample_world
    = Ret (attr_int 3).
Proof.
  apply (put_put_get sample_world 0 sample_feature sample_context "a" "b"
           (attr_int 3) (attr_int 4)).
  - reflexivity.
  - reflexivity.
  - apply registered_reachable.
  - reflexivity.
  - reflexivity.
Defined.

Lemma put_other_record_witness :
  result_of (get 1 "a")
    (world_after (put 0 "a" (attr_int 3))
       (World [sample_context] [sample_feature; sample_feature]))
  = Ret (attr_text "x").
Proof.
  rewrite (put_other_record
             (World [sample_context] [sample_feature; sample_feature])
             0 1 "a" "a" (attr_int 3)).
  - reflexivity.
  - lia.
Defined.

Lemma fresh_record_get_witness :
  result_of (let* this := feature_impl_new 0 9 in get this "b") sample_world
    = Ret attr_null.
Proof.
  exact (fresh_record_get sample_world 0 sample_context 9 "b" eq_refl
           (registered_reachable ["b"; "a"])).
Defined.

(** ** Reads across a growing context *)

Lemma push_keeps_found name c key e :
  context_reachable c →
  map_find key (mapping_ c) = Some e →
  map_find key (mapping_ (push name c)) = Some e.
Proof.
  intros Hreach Hfind. destruct (decide (key = name)) as [->|Hne].
  - rewrite push_present; [done|by apply reachable_ok|].
    apply map_find_is_Some. by exists e.
  - by rewrite push_other_entries.
Qed.

Section GrowingContext.
Context {value geometry_type raster : Type}.

Implicit Types (w : world value geometry_type raster).
Implicit Types (f : feature_impl value geometry_type raster).

(** A [get] that returns a value returns the same value after any [push]
    on the context of the record: later registrations do not disturb the
    attributes that can be read. *)
Theorem get_after_push w this f c key name (v : value) :
  features w !! this = Some f → contexts w !! ctx_ f = Some c →
  context_reachable c →
  result_of (get this key) w = Ret v →
  result_of (get this key) (world_after (ctx_push (ctx_ f) name) w) = Ret v.
Proof.
  intros Hf Hc Hreach. unfold result_of, world_after.
  rewrite (get_run w this f c) by done.
  rewrite (ctx_push_run w (ctx_ f) c) by done. simpl.
  destruct (map_find key (mapping_ c)) as [itr|] eqn:Hfind; [|done].
  intros Hget.
  rewrite (get_run _ this f (push name c)).
  - rewrite (push_keeps_found name c key itr Hreach Hfind).
    by destruct (data_ f !! itr.2).
  - done.
  - apply list_lookup_insert_eq. by eapply lookup_lt_Some.
Qed.
End GrowingContext.

Lemma get_after_push_witness :
  result_of (get 0 "a") (world_after (ctx_push 0 "late") sample_world)
    = Ret (attr_text "x").
Proof.
  apply (get_after_push sample_world 0 sample_feature sample_context "a"
           "late" (attr_text "x")).
  - reflexivity.
  - reflexivity.
  - apply registered_reachable.
  - reflexivity.
Defined.
